(** * nfcwallet: the card list and the NFC scan workflow

    A shallow embedding of the [App] component of [src/ExpandableCard.tsx]:
    the card collection held in React state, the capability check run on
    mount, the scan trigger, the asynchronous scan with its
    try / catch / finally, and the deletion callback.

    The NFC stack ([NfcManager], [Ndef]) and the alert and console
    surfaces are external.  A call into the NFC stack is answered by a
    record of type [NfcService]; every call and every notice is written to
    an event log, so that "how often" and "in which order" can be stated. *)

From Stdlib Require Import ZArith Lia.
From stdpp Require Import base numbers list strings pretty.

Local Open Scope Z_scope.
Local Open Scope string_scope.
Local Open Scope list_scope.

(** ** Data model *)

(** [interface ExpandableCardProps]: [nfcData?] is an optional field. *)
Record ExpandableCardProps : Type := mkCard {
  id : Z;
  title : string;
  details : string;
  nfcData : option string;
}.

#[global] Instance ExpandableCardProps_eq_dec : EqDecision ExpandableCardProps.
Proof. solve_decision. Defined.

(** The part of an NDEF record the component reads: [payload], an array of
    numbers. *)
Record NdefRecord : Type := mkNdefRecord {
  payload : list Z;
}.

(** The part of a tag event the component reads: [ndefMessage], which the
    library leaves undefined for a tag that carries no NDEF message. *)
Record TagEvent : Type := mkTagEvent {
  ndefMessage : option (list NdefRecord);
}.

Inductive NfcTech : Type := Ndef | NfcA | NfcB | NfcF | NfcV | IsoDep | MifareClassic.

(** A thrown value (a rejected promise carries one). *)
Inductive exn : Type := Exn (msg : string).

(** What an awaited call, or a call that may throw, comes back with. *)
Inductive outcome (A : Type) : Type :=
| Resolved (a : A)
| Rejected (ex : exn).
Arguments Resolved {A} a.
Arguments Rejected {A} ex.

(** [new Uint8Array(numbers)]: every element is taken modulo 2^8. *)
Definition Uint8Array (numbers : list Z) : list Z :=
  (λ n, n `mod` 256) <$> numbers.

(** The external NFC stack, as the component sees it. *)
Record NfcService : Type := mkNfcService {
  isSupported : outcome bool;
  start : outcome ();
  requestTechnology : NfcTech → outcome ();
  getTag : outcome (option TagEvent);
  decodePayload : list Z → outcome string;
}.

(** What the component does to the outside, in the order it does it. *)
Inductive event : Type :=
| EvIsSupported
| EvStart
| EvRequestTechnology (tech : NfcTech)
| EvGetTag
| EvDecodePayload (bytes : list Z)
| EvCancelTechnologyRequest
| EvAlert (heading message : string)
| EvConsoleLog (message : string)
| EvConsoleWarn (message : string) (ex : exn).

#[global] Instance NfcTech_eq_dec : EqDecision NfcTech.
Proof. solve_decision. Defined.
#[global] Instance exn_eq_dec : EqDecision exn.
Proof. solve_decision. Defined.
#[global] Instance event_eq_dec : EqDecision event.
Proof. solve_decision. Defined.

(** The three [useState] cells of [App]. *)
Record AppState : Type := mkAppState {
  cards : list ExpandableCardProps;
  isNfcSupported : bool;
  scanModalVisible : bool;
}.

Definition setCards (f : list ExpandableCardProps → list ExpandableCardProps)
    (st : AppState) : AppState :=
  mkAppState (f (cards st)) (isNfcSupported st) (scanModalVisible st).

Definition setIsNfcSupported (b : bool) (st : AppState) : AppState :=
  mkAppState (cards st) b (scanModalVisible st).

Definition setScanModalVisible (b : bool) (st : AppState) : AppState :=
  mkAppState (cards st) (isNfcSupported st) b.

(** The initial values handed to [useState]. *)
Definition seedCard : ExpandableCardProps :=
  mkCard 1 "Kart 1" "Bu, birinci kartın detaylarıdır." None.

Definition initialState : AppState :=
  mkAppState [seedCard] false false.

(** ** Effects

    A computation reads and writes the component state, appends to the
    event log, and either returns or throws.  State and log written before
    a throw stay written. *)

Record World : Type := mkWorld {
  app : AppState;
  log : list event;
}.

Definition M (A : Type) : Type := World → World * outcome A.

#[global] Instance M_ret : MRet M := λ A a w, (w, Resolved a).

(** Sequencing stops at the first throw. *)
#[global] Instance M_bind : MBind M := λ A B k c w,
  match c w with
  | (w', Resolved a) => k a w'
  | (w', Rejected ex) => (w', Rejected ex)
  end.

Module Eff.

Definition emit (e : event) : M () :=
  λ w, (mkWorld (app w) (log w ++ [e]), Resolved ()).

Definition update (f : AppState → AppState) : M () :=
  λ w, (mkWorld (f (app w)) (log w), Resolved ()).

Definition read : M AppState := λ w, (w, Resolved (app w)).

(** The settled value of a promise: returned, or thrown at the [await]. *)
Definition settle {A} (o : outcome A) : M A := λ w, (w, o).

(** [try { body } catch (ex) { handler } finally { cleanup }].  The
    cleanup runs on every path; a throw of the handler passes through it,
    and a throw of the cleanup replaces whatever came before. *)
Definition try_catch_finally (body : M ()) (handler : exn → M ())
    (cleanup : M ()) : M () :=
  λ w,
    let '(w1, r1) :=
      match body w with
      | (w', Resolved u) => (w', Resolved u)
      | (w', Rejected ex) => handler ex w'
      end in
    match cleanup w1 with
    | (w2, Resolved _) => (w2, r1)
    | (w2, Rejected ex) => (w2, Rejected ex)
    end.

(** [try { body } catch (ex) { handler }]. *)
Definition try_catch (body : M ()) (handler : exn → M ()) : M () :=
  λ w, match body w with
       | (w', Resolved u) => (w', Resolved u)
       | (w', Rejected ex) => handler ex w'
       end.

End Eff.


(** ** The operations of [App] *)

Section Operations.

Variable NfcManager : NfcService.

(** [initializeNfc], the body of the mount effect (lines 122-136). *)
Definition initializeNfc : M () :=
  Eff.try_catch
    (Eff.emit EvIsSupported;;
     supported ← Eff.settle (isSupported NfcManager);
     if (supported : bool) then
       Eff.emit EvStart;;
       Eff.settle (start NfcManager);;
       Eff.update (setIsNfcSupported true)
     else
       Eff.emit (EvConsoleLog "NFC not supported");;
       Eff.update (setIsNfcSupported false))
    (λ ex,
       Eff.emit (EvConsoleWarn "Error initializing NFC" ex);;
       Eff.update (setIsNfcSupported false)).

(** [openScanModal] (lines 141-147). *)
Definition openScanModal : M () :=
  st ← Eff.read;
  if negb (isNfcSupported st) then
    Eff.emit (EvAlert "NFC Error" "NFC is not supported on this device")
  else
    Eff.update (setScanModalVisible true).

(** [ndefRecords && ndefRecords.length > 0 ? decode(...) : 'No readable data']
    (lines 155-158). *)
Definition parseData (tag : TagEvent) : M string :=
  match ndefMessage tag with
  | Some (record :: _) =>
      let bytes := Uint8Array (payload record) in
      Eff.emit (EvDecodePayload bytes);;
      Eff.settle (decodePayload NfcManager bytes)
  | Some [] | None => mret "No readable data"
  end.

(** [(prev) => [...prev, { ...newCard, id: prev.length + 1 }]] (line 166). *)
Definition appendCard (parsedData : string)
    (prev : list ExpandableCardProps) : list ExpandableCardProps :=
  prev ++ [mkCard (Z.of_nat (length prev) + 1) "New NFC Card"
                  "Card scanned successfully" (Some parsedData)].

(** The [try] block of [scanNfc] (lines 151-167). *)
Definition scanNfc_try : M () :=
  Eff.emit (EvRequestTechnology Ndef);;
  Eff.settle (requestTechnology NfcManager Ndef);;
  Eff.emit EvGetTag;;
  tag ← Eff.settle (getTag NfcManager);
  match tag with
  | Some tag =>
      parsedData ← parseData tag;
      Eff.update (setCards (appendCard parsedData))
  | None => mret ()
  end.

(** The [catch] block of [scanNfc] (lines 168-170). *)
Definition scanNfc_catch (ex : exn) : M () :=
  Eff.emit (EvConsoleWarn "NFC Scan Error" ex);;
  Eff.emit (EvAlert "NFC Error" "Failed to scan NFC tag").

(** The [finally] block of [scanNfc] (lines 171-174).  The cancel call
    returns a promise that is not awaited, so it cannot throw here. *)
Definition scanNfc_finally : M () :=
  Eff.emit EvCancelTechnologyRequest;;
  Eff.update (setScanModalVisible false).

(** [scanNfc] (lines 149-175), run from its call to the settling of its
    promise.  The append is a functional update, so it applies to the
    collection at the time of the update. *)
Definition scanNfc : M () :=
  Eff.try_catch_finally scanNfc_try scanNfc_catch scanNfc_finally.

(** [deleteCard] (lines 177-179): [setCards(cards.filter((card) =>
    card.id !== id))].  [cards] is the collection of the render in which
    the callback was made; in a sequential run that is the current one. *)
Definition deleteCard (id0 : Z) : M () :=
  st ← Eff.read;
  Eff.update (setCards (λ _, filter (λ card, id card ≠ id0) (cards st))).

End Operations.

(** ** Reading a run *)

(** How often the session is released in a stretch of the log. *)
Definition releases (evs : list event) : nat :=
  length (filter (λ e, e = EvCancelTechnologyRequest) evs).

Definition isAlert (e : event) : bool :=
  match e with EvAlert _ _ => true | _ => false end.

(** The user-facing notices in a stretch of the log. *)
Definition notices (evs : list event) : list event :=
  filter (λ e, isAlert e) evs.

Definition scanFailureNotice : event :=
  EvAlert "NFC Error" "Failed to scan NFC tag".

Definition unsupportedNotice : event :=
  EvAlert "NFC Error" "NFC is not supported on this device".

(** The ways a scan session can go, read off the answers of the service.
    A scan succeeds with a text when the session is granted, a tag is read
    and its first record decodes, or it has no record to decode. *)
Inductive scan_succeeds (svc : NfcService) : string → Prop :=
| scan_decoded tag record records text :
    requestTechnology svc Ndef = Resolved () →
    getTag svc = Resolved (Some tag) →
    ndefMessage tag = Some (record :: records) →
    decodePayload svc (Uint8Array (payload record)) = Resolved text →
    scan_succeeds svc text
| scan_no_records tag :
    requestTechnology svc Ndef = Resolved () →
    getTag svc = Resolved (Some tag) →
    ndefMessage tag = Some [] →
    scan_succeeds svc "No readable data"
| scan_no_message tag :
    requestTechnology svc Ndef = Resolved () →
    getTag svc = Resolved (Some tag) →
    ndefMessage tag = None →
    scan_succeeds svc "No readable data".

(** An exception is raised during the session: by the session request, by
    the tag read, or by the decoder. *)
Inductive scan_throws (svc : NfcService) : exn → Prop :=
| request_failure ex :
    requestTechnology svc Ndef = Rejected ex →
    scan_throws svc ex
| read_failure ex :
    requestTechnology svc Ndef = Resolved () →
    getTag svc = Rejected ex →
    scan_throws svc ex
| decode_failure tag record records ex :
    requestTechnology svc Ndef = Resolved () →
    getTag svc = Resolved (Some tag) →
    ndefMessage tag = Some (record :: records) →
    decodePayload svc (Uint8Array (payload record)) = Rejected ex →
    scan_throws svc ex.

(** The session is granted and the read comes back without a tag. *)
Definition scan_no_tag (svc : NfcService) : Prop :=
  requestTechnology svc Ndef = Resolved () ∧ getTag svc = Resolved None.

(** A failure of the scan in the wide sense: an exception, or no tag. *)
Definition scan_fails (svc : NfcService) : Prop :=
  (∃ ex, scan_throws svc ex) ∨ scan_no_tag svc.

(** ** Sequences of user actions *)

Inductive action : Type :=
| OpenScanModal
| ScanNfc (svc : NfcService)
| DeleteCard (id0 : Z).

Definition perform (a : action) : M () :=
  match a with
  | OpenScanModal => openScanModal
  | ScanNfc svc => scanNfc svc
  | DeleteCard id0 => deleteCard id0
  end.

Fixpoint performAll (acts : list action) : M () :=
  match acts with
  | [] => mret ()
  | a :: acts => perform a;; performAll acts
  end.

(** The steps of a run made of successful scans and of deletions. *)
Definition scan_or_delete (a : action) : Prop :=
  match a with
  | ScanNfc svc => ∃ text, scan_succeeds svc text
  | DeleteCard _ => True
  | OpenScanModal => False
  end.

(** ** Services used as concrete inputs *)

(** A tag with one text record: status byte, language "en", then "hello". *)
Definition helloTag : TagEvent :=
  mkTagEvent (Some [mkNdefRecord [2; 101; 110; 104; 101; 108; 108; 111]]).

(** A decoder answering with a fixed text. *)
Definition tagService (tag : option TagEvent) (text : string) : NfcService :=
  mkNfcService (Resolved true) (Resolved ()) (λ _, Resolved ())
               (Resolved tag) (λ _, Resolved text).

Definition helloService : NfcService := tagService (Some helloTag) "hello".

Definition noTagService : NfcService := tagService None "".

Definition emptyTagService : NfcService :=
  tagService (Some (mkTagEvent (Some []))) "".

(** The session request is refused. *)
Definition refusingService : NfcService :=
  mkNfcService (Resolved true) (Resolved ())
               (λ _, Rejected (Exn "request cancelled"))
               (Resolved (Some helloTag)) (λ _, Resolved "hello").

(** The hardware is reported as absent. *)
Definition unsupportedService : NfcService :=
  mkNfcService (Resolved false) (Resolved ())
               (λ _, Rejected (Exn "no NFC"))
               (Rejected (Exn "no NFC")) (λ _, Rejected (Exn "no NFC")).

(** The same tag, decoded to another text. *)
Definition worldService : NfcService := tagService (Some helloTag) "world".

(** Scan, delete the seeded card, scan again. *)
Definition duplicatingRun : list action :=
  [ScanNfc helloService; DeleteCard 1; ScanNfc worldService].

(** ** States and runs the statements speak of *)

(** Without the capability, the surface is closed and stays closed. *)
Definition locked (st : AppState) : Prop :=
  isNfcSupported st = false ∧ scanModalVisible st = false.

(** The world after the mount effect and then a sequence of user actions. *)
Definition afterMount (svc : NfcService) (acts : list action) : World :=
  ((initializeNfc svc;; performAll acts) (mkWorld initialState [])).1.

(** ** The card item: [ExpandableCard]

    The four [useState] cells of the component (lines 25-28).  An animated
    value is recorded by the value it comes to rest at, which is the
    [toValue] of the animation started on it last. *)
Record CardItemState : Type := mkCardItem {
  expanded : bool;
  heightAnim : Z;
  opacityAnim : Z;
  modalVisible : bool;
}.

(** The initial values: collapsed, 60 high, opaque, no dialog. *)
Definition initialItem : CardItemState := mkCardItem false 60 1 false.

(** [toggleExpand] (lines 30-37). *)
Definition toggleExpand (it : CardItemState) : CardItemState :=
  mkCardItem (negb (expanded it)) (if expanded it then 60 else 150)
             (opacityAnim it) (modalVisible it).

(** [showModal] (lines 39-41). *)
Definition showModal (it : CardItemState) : CardItemState :=
  mkCardItem (expanded it) (heightAnim it) (opacityAnim it) true.

(** [closeModal] (lines 43-45). *)
Definition closeModal (it : CardItemState) : CardItemState :=
  mkCardItem (expanded it) (heightAnim it) (opacityAnim it) false.

(** [confirmDelete] (lines 47-63): both animations run to 0, then the
    callback of [start] calls [onDelete(id)] and, when that returns,
    [closeModal()].  The item state comes back beside the parent's world,
    so that it is there also when [onDelete] throws. *)
Definition confirmDelete (props : ExpandableCardProps) (onDelete : Z → M ())
    (it : CardItemState) (w : World) : CardItemState * (World * outcome ()) :=
  let faded := mkCardItem (expanded it) 0 0 (modalVisible it) in
  match onDelete (id props) w with
  | (w', Resolved u) => (closeModal faded, (w', Resolved u))
  | (w', Rejected ex) => (faded, (w', Rejected ex))
  end.

(** The handlers a control of the two components can be wired to. *)
Inductive press : Type :=
| OnToggleExpand
| OnShowModal
| OnCloseModal
| OnConfirmDelete
| OnOpenScanModal.

#[global] Instance press_eq_dec : EqDecision press.
Proof. solve_decision. Defined.

(** One press on a control of a card item whose [onDelete] is the given
    callback.  The add button is not part of a card item. *)
Definition pressItem (props : ExpandableCardProps) (onDelete : Z → M ())
    (p : press) (it : CardItemState) (w : World)
    : CardItemState * (World * outcome ()) :=
  match p with
  | OnToggleExpand => (toggleExpand it, (w, Resolved ()))
  | OnShowModal => (showModal it, (w, Resolved ()))
  | OnCloseModal => (closeModal it, (w, Resolved ()))
  | OnConfirmDelete => confirmDelete props onDelete it w
  | OnOpenScanModal => (it, (w, Resolved ()))
  end.

(** Presses one after the other; a throw ends the sequence. *)
Fixpoint pressAll (props : ExpandableCardProps) (onDelete : Z → M ())
    (ps : list press) (it : CardItemState) (w : World)
    : CardItemState * (World * outcome ()) :=
  match ps with
  | [] => (it, (w, Resolved ()))
  | p :: ps =>
      match pressItem props onDelete p it w with
      | (it', (w', Resolved _)) => pressAll props onDelete ps it' w'
      | (it', (w', Rejected ex)) => (it', (w', Rejected ex))
      end
  end.

(** ** What is rendered

    The element trees the two components return, with the props the
    statements below read: the style name, the handler, the text.  An
    item of the list is the [ExpandableCard] element with its key and its
    props; what that element shows is [renderCard]. *)
#[local] Set Warnings "-register-all".
Inductive element : Type :=
| View (style : string) (children : list element)
| AnimatedView (style : string) (height opacity : Z) (children : list element)
| Text (style : string) (content : string)
| TouchableOpacity (style : string) (onPress : press) (children : list element)
| Pressable (style : string) (onPress : press) (children : list element)
| Modal (visible : bool) (onRequestClose : press) (children : list element)
| Str (s : string)
| FlatList (data : list (string * ExpandableCardProps)) (footer : element).

(** [{nfcData && <Text ...>NFC Data: {nfcData}</Text>}] (lines 78-80): an
    absent field renders nothing, the empty string is itself the child,
    any other string gives the line. *)
Definition nfcDataLine (props : ExpandableCardProps) : list element :=
  match nfcData props with
  | None => []
  | Some "" => [Str ""]
  | Some s => [Text "nfcDataText" ("NFC Data: " +:+ s)]
  end.

(** The tree [ExpandableCard] returns (lines 65-111). *)
Definition renderCard (props : ExpandableCardProps) (it : CardItemState)
    : element :=
  AnimatedView "card" (heightAnim it) (opacityAnim it)
    ([TouchableOpacity "cardHeader" OnToggleExpand
        [Text "cardTitle" (title props);
         TouchableOpacity "deleteButton" OnShowModal
           [Text "deleteButtonText" "X"]]]
     ++ (if expanded it
         then [View "cardDetails"
                 (Text "cardDetailsText" (details props) :: nfcDataLine props)]
         else [])
     ++ [Modal (modalVisible it) OnCloseModal
           [Pressable "modalContainer" OnCloseModal
              [View "modalContent"
                 [TouchableOpacity "modalCloseButton" OnCloseModal
                    [Text "modalCloseButtonText" "X"];
                  Text "modalText" "Do you really want to delete this card?";
                  TouchableOpacity "modalDeleteButton" OnConfirmDelete
                    [Text "modalDeleteButtonText" "Yes"]]]]]).

(** [keyExtractor] (line 185): the template string of the identifier,
    which for an integer is its decimal numeral. *)
Definition keyExtractor (item : ExpandableCardProps) : string := pretty (id item).

(** The tree [App] returns (lines 181-202): one [ExpandableCard] element
    per card, under its key, and the add button as the footer. *)
Definition renderApp (st : AppState) : element :=
  View "container"
    [FlatList ((λ item, (keyExtractor item, item)) <$> cards st)
       (TouchableOpacity "addButton" OnOpenScanModal
          [Text "addButtonText" "+"])].


(** The handlers of the controls of a tree that can be pressed, the
    back button of a dialog ([onRequestClose]) among them: a dialog that
    is not visible offers none. *)
Fixpoint pressable (e : element) : list press :=
  match e with
  | View _ children | AnimatedView _ _ _ children =>
      concat (pressable <$> children)
  | TouchableOpacity _ onPress children | Pressable _ onPress children =>
      onPress :: concat (pressable <$> children)
  | Modal visible onRequestClose children =>
      if visible then onRequestClose :: concat (pressable <$> children) else []
  | Text _ _ | Str _ => []
  | FlatList _ footer => pressable footer
  end.

(** The contents of the [Text] elements of a tree that are on display. *)
Fixpoint displayed (e : element) : list string :=
  match e with
  | View _ children | AnimatedView _ _ _ children
  | TouchableOpacity _ _ children | Pressable _ _ children =>
      concat (displayed <$> children)
  | Modal visible _ children =>
      if visible then concat (displayed <$> children) else []
  | Text _ content => [content]
  | Str _ => []
  | FlatList _ footer => displayed footer
  end.

(** The height rests where the expansion says, and the card is opaque. *)
Definition settled (it : CardItemState) : Prop :=
  heightAnim it = (if expanded it then 150 else 60) ∧ opacityAnim it = 1.

(** Every press of the sequence is on a control that the item, as it is
    rendered at that moment, offers. *)
Fixpoint offered (props : ExpandableCardProps) (onDelete : Z → M ())
    (ps : list press) (it : CardItemState) (w : World) : Prop :=
  match ps with
  | [] => True
  | p :: ps =>
      p ∈ pressable (renderCard props it)
      ∧ offered props onDelete ps (pressItem props onDelete p it w).1
                (pressItem props onDelete p it w).2.1
  end.

(** ** Runs and what they add to the log *)

(** The events a computation adds to the log of the world it starts in. *)
Definition events {A} (c : M A) (w : World) : list event :=
  drop (length (log w)) (log (c w).1).

(** The same service, with a tag of the given records on the reader. *)
Definition withRecords (svc : NfcService) (records : list NdefRecord)
    : NfcService :=
  mkNfcService (isSupported svc) (start svc) (requestTechnology svc)
               (Resolved (Some (mkTagEvent (Some records))))
               (decodePayload svc).

(** A run without deletions. *)
Definition no_delete (a : action) : Prop :=
  match a with
  | DeleteCard _ => False
  | OpenScanModal | ScanNfc _ => True
  end.

(** The identifiers count up from 1 in display order. *)
Definition numbered (cs : list ExpandableCardProps) : Prop :=
  id <$> cs = (λ i, Z.of_nat i + 1) <$> seq 0 (length cs).

(** No identifier is below the one-based position of its card. *)
Definition positioned (cs : list ExpandableCardProps) : Prop :=
  ∀ i c, cs !! i = Some c → (Z.of_nat i + 1 ≤ id c)%Z.

(** ** The three shapes of a scan *)

Ltac scan_unfold :=
  unfold scanNfc, Eff.try_catch_finally, scanNfc_try, scanNfc_catch,
    scanNfc_finally, parseData, Eff.emit, Eff.settle, Eff.update, Eff.read,
    mbind, M_bind, mret, M_ret; cbn.

Lemma scanNfc_succeeds svc text w :
  scan_succeeds svc text →
  ∃ evs,
    scanNfc svc w =
      (mkWorld (setScanModalVisible false (setCards (appendCard text) (app w)))
               (log w ++ evs), Resolved ())
    ∧ releases evs = 1%nat ∧ last evs = Some EvCancelTechnologyRequest
    ∧ notices evs = [].
Proof.
  intros [tag record records text' Hreq Htag Hmsg Hdec
         |tag Hreq Htag Hmsg|tag Hreq Htag Hmsg].
  - exists [EvRequestTechnology Ndef; EvGetTag;
            EvDecodePayload (Uint8Array (payload record));
            EvCancelTechnologyRequest].
    scan_unfold. rewrite Hreq, Htag; cbn. rewrite Hmsg; cbn. rewrite Hdec; cbn.
    rewrite <- !(assoc_L (++)). done.
  - exists [EvRequestTechnology Ndef; EvGetTag; EvCancelTechnologyRequest].
    scan_unfold. rewrite Hreq, Htag; cbn. rewrite Hmsg; cbn.
    rewrite <- !(assoc_L (++)). done.
  - exists [EvRequestTechnology Ndef; EvGetTag; EvCancelTechnologyRequest].
    scan_unfold. rewrite Hreq, Htag; cbn. rewrite Hmsg; cbn.
    rewrite <- !(assoc_L (++)). done.
Qed.

Lemma scanNfc_throws svc ex w :
  scan_throws svc ex →
  ∃ evs,
    scanNfc svc w =
      (mkWorld (setScanModalVisible false (app w)) (log w ++ evs), Resolved ())
    ∧ releases evs = 1%nat ∧ last evs = Some EvCancelTechnologyRequest
    ∧ notices evs = [scanFailureNotice].
Proof.
  intros [ex' Hreq|ex' Hreq Htag|tag record records ex' Hreq Htag Hmsg Hdec].
  - exists [EvRequestTechnology Ndef; EvConsoleWarn "NFC Scan Error" ex';
            scanFailureNotice; EvCancelTechnologyRequest].
    scan_unfold. rewrite Hreq; cbn.
    rewrite <- !(assoc_L (++)). done.
  - exists [EvRequestTechnology Ndef; EvGetTag;
            EvConsoleWarn "NFC Scan Error" ex';
            scanFailureNotice; EvCancelTechnologyRequest].
    scan_unfold. rewrite Hreq, Htag; cbn.
    rewrite <- !(assoc_L (++)). done.
  - exists [EvRequestTechnology Ndef; EvGetTag;
            EvDecodePayload (Uint8Array (payload record));
            EvConsoleWarn "NFC Scan Error" ex';
            scanFailureNotice; EvCancelTechnologyRequest].
    scan_unfold. rewrite Hreq, Htag; cbn. rewrite Hmsg; cbn. rewrite Hdec; cbn.
    rewrite <- !(assoc_L (++)). done.
Qed.

Lemma scanNfc_no_tag svc w :
  scan_no_tag svc →
  scanNfc svc w =
    (mkWorld (setScanModalVisible false (app w))
             (log w ++ [EvRequestTechnology Ndef; EvGetTag;
                        EvCancelTechnologyRequest]), Resolved ()).
Proof.
  intros [Hreq Htag]. scan_unfold. rewrite Hreq, Htag; cbn.
  rewrite <- !(assoc_L (++)). done.
Qed.

(** Every service falls under one of the three shapes, and (the three
    lemmas after this one) under no two of them. *)
Lemma scan_cases svc :
  (∃ text, scan_succeeds svc text) ∨ (∃ ex, scan_throws svc ex) ∨ scan_no_tag svc.
Proof.
  destruct (requestTechnology svc Ndef) as [[]|ex] eqn:Hreq.
  2: { right; left. exists ex. by apply request_failure. }
  destruct (getTag svc) as [[tag|]|ex] eqn:Htag.
  3: { right; left. exists ex. by apply read_failure. }
  2: { right; right. by split. }
  destruct (ndefMessage tag) as [[|record records]|] eqn:Hmsg.
  - left. eexists. by eapply scan_no_records.
  - destruct (decodePayload svc (Uint8Array (payload record))) as [text|ex] eqn:Hdec.
    + left. exists text. by eapply scan_decoded.
    + right; left. exists ex. by eapply decode_failure.
  - left. eexists. by eapply scan_no_message.
Qed.

Lemma scan_succeeds_not_throws svc text ex :
  scan_succeeds svc text → scan_throws svc ex → False.
Proof.
  intros Hs Ht. destruct Hs; destruct Ht; congruence.
Qed.

Lemma scan_succeeds_not_no_tag svc text :
  scan_succeeds svc text → scan_no_tag svc → False.
Proof.
  intros Hs [Hreq Htag]. destruct Hs; congruence.
Qed.

Lemma scan_throws_not_no_tag svc ex :
  scan_throws svc ex → scan_no_tag svc → False.
Proof.
  intros Ht [Hreq Htag]. destruct Ht; congruence.
Qed.

(** A scan always settles without throwing, whatever the service does. *)
Lemma scanNfc_resolves svc w : (scanNfc svc w).2 = Resolved ().
Proof.
  destruct (scan_cases svc) as [[text Hs]|[[ex Ht]|Hn]].
  - destruct (scanNfc_succeeds svc text w Hs) as (evs & -> & _). done.
  - destruct (scanNfc_throws svc ex w Ht) as (evs & -> & _). done.
  - by rewrite (scanNfc_no_tag svc w Hn).
Qed.

(** The collection after a successful scan. *)
Lemma scanNfc_succeeds_cards svc text w :
  scan_succeeds svc text →
  cards (app (scanNfc svc w).1) =
    cards (app w) ++ [mkCard (Z.of_nat (length (cards (app w))) + 1)
                             "New NFC Card" "Card scanned successfully"
                             (Some text)].
Proof.
  intros Hs. destruct (scanNfc_succeeds svc text w Hs) as (evs & -> & _). done.
Qed.

(** ** The scan session is always released *)

(** C1.  Whatever the service answers (a decoded tag, an empty tag, no tag,
    or an exception at any step), one invocation of [scanNfc] adds to the
    log a stretch of events that contains the cancel call exactly once, as
    its last event, leaves the scan-confirmation surface closed, and
    settles without throwing; and when the session request throws, the
    collection afterwards is the collection before. *)
Theorem scanNfc_releases_once svc w :
  ∃ evs,
    log (scanNfc svc w).1 = log w ++ evs
    ∧ releases evs = 1%nat
    ∧ last evs = Some EvCancelTechnologyRequest
    ∧ scanModalVisible (app (scanNfc svc w).1) = false
    ∧ (scanNfc svc w).2 = Resolved ()
    ∧ (∀ ex, requestTechnology svc Ndef = Rejected ex →
             cards (app (scanNfc svc w).1) = cards (app w)).
Proof.
  destruct (scan_cases svc) as [[text Hs]|[[ex Ht]|Hn]].
  - destruct (scanNfc_succeeds svc text w Hs) as (evs & Hrun & Hrel & Hlast & _).
    exists evs. rewrite Hrun; cbn. repeat split; try done.
    intros ex Hreq. exfalso.
    eapply scan_succeeds_not_throws; [done|by apply request_failure].
  - destruct (scanNfc_throws svc ex w Ht) as (evs & Hrun & Hrel & Hlast & _).
    exists evs. rewrite Hrun; cbn. by repeat split.
  - rewrite (scanNfc_no_tag svc w Hn); cbn.
    exists [EvRequestTechnology Ndef; EvGetTag; EvCancelTechnologyRequest].
    by repeat split.
Qed.

(** The refused session request of C1, run from the seeded state. *)
Lemma scanNfc_releases_once_refused :
  ∃ evs,
    log (scanNfc refusingService (mkWorld initialState [])).1 = evs
    ∧ releases evs = 1%nat
    ∧ scanModalVisible (app (scanNfc refusingService (mkWorld initialState [])).1)
      = false
    ∧ cards (app (scanNfc refusingService (mkWorld initialState [])).1)
      = [seedCard].
Proof.
  destruct (scanNfc_releases_once refusingService (mkWorld initialState []))
    as (evs & Hlog & Hrel & _ & Hvis & _ & Hcards).
  exists evs. split; [exact Hlog|]. split; [exact Hrel|]. split; [exact Hvis|].
  exact (Hcards (Exn "request cancelled") eq_refl).
Defined.

(** ** Failures of the scan *)

(** C2, as stated, fails when the read comes back without a tag: the
    [if (tag)] guard skips the append and nothing is thrown, so the
    [catch] block with its alert is not entered. *)
Lemma scanNfc_no_tag_silent :
  scan_fails noTagService
  ∧ notices (log (scanNfc noTagService (mkWorld initialState [])).1) = []
  ∧ ¬ (∀ svc w, scan_fails svc →
         ∃ evs, log (scanNfc svc w).1 = log w ++ evs
                ∧ scanFailureNotice ∈ evs
                ∧ cards (app (scanNfc svc w).1) = cards (app w)).
Proof.
  assert (Hf : scan_fails noTagService) by (right; by split).
  split; [done|]. split; [reflexivity|].
  intros Hclaim.
  destruct (Hclaim noTagService (mkWorld initialState []) Hf)
    as (evs & Hlog & Hin & _).
  cbn in Hlog. subst evs.
  by repeat (apply elem_of_cons in Hin as [Hin|Hin]; [discriminate Hin|]);
     apply elem_of_nil in Hin.
Qed.

(** C2, amended.  For every failure of the scan, an exception or an absent
    tag, the collection after the scan is the collection before.  When
    the failure is an exception (of the session request, of the tag read
    or of the decoder), exactly one notice is surfaced, the scan-failure
    alert. *)
Theorem scanNfc_failure svc w :
  scan_fails svc →
  ∃ evs,
    log (scanNfc svc w).1 = log w ++ evs
    ∧ cards (app (scanNfc svc w).1) = cards (app w)
    ∧ ((∃ ex, scan_throws svc ex) →
       notices evs = [scanFailureNotice] ∧ scanFailureNotice ∈ evs).
Proof.
  intros [[ex Ht]|Hn].
  - destruct (scanNfc_throws svc ex w Ht) as (evs & Hrun & _ & _ & Hnot).
    exists evs. rewrite Hrun; cbn. split; [done|]. split; [done|].
    intros _. split; [done|].
    assert (Hin : scanFailureNotice ∈ notices evs) by (rewrite Hnot; by left).
    by apply list_elem_of_filter in Hin as [_ Hin].
  - rewrite (scanNfc_no_tag svc w Hn); cbn.
    exists [EvRequestTechnology Ndef; EvGetTag; EvCancelTechnologyRequest].
    split; [done|]. split; [done|].
    intros [ex Ht]. exfalso. by eapply scan_throws_not_no_tag.
Qed.

Lemma scanNfc_failure_refused :
  scan_fails refusingService
  ∧ ∃ evs,
      log (scanNfc refusingService (mkWorld initialState [])).1 = evs
      ∧ cards (app (scanNfc refusingService (mkWorld initialState [])).1)
        = [seedCard]
      ∧ notices evs = [scanFailureNotice].
Proof.
  assert (Hf : scan_fails refusingService).
  { left. exists (Exn "request cancelled"). by apply request_failure. }
  split; [exact Hf|].
  destruct (scanNfc_failure refusingService (mkWorld initialState []) Hf)
    as (evs & Hlog & Hcards & Hnot).
  exists evs. split; [exact Hlog|]. split; [exact Hcards|].
  apply Hnot. exists (Exn "request cancelled"). by apply request_failure.
Defined.

(** ** Successful scans *)

(** C3, as stated, fails: scanning into the seeded one-card collection
    gives the new card the identifier 2, not the length 1 the collection
    has at the time of the scan. *)
Lemma scanned_id_is_not_length :
  scan_succeeds helloService "hello"
  ∧ length (cards initialState) = 1%nat
  ∧ id <$> last (cards (app (scanNfc helloService (mkWorld initialState [])).1))
    = Some 2
  ∧ ¬ (∀ svc text w, scan_succeeds svc text →
         ∃ c, cards (app (scanNfc svc w).1) = cards (app w) ++ [c]
              ∧ id c = Z.of_nat (length (cards (app w)))).
Proof.
  assert (Hs : scan_succeeds helloService "hello").
  { by eapply scan_decoded. }
  split; [done|]. split; [reflexivity|]. split; [reflexivity|].
  intros Hclaim.
  destruct (Hclaim helloService "hello" (mkWorld initialState []) Hs)
    as (c & Hcards & Hid).
  cbn in Hcards. injection Hcards as <-. discriminate Hid.
Qed.

(** C3, amended.  When a scan succeeds, exactly one card is appended and
    its identifier is the length of the collection at the time of the
    update plus one, that is, the length of the collection once the card
    is in it. *)
Theorem scanned_id_is_length_plus_one svc text w :
  scan_succeeds svc text →
  ∃ c,
    cards (app (scanNfc svc w).1) = cards (app w) ++ [c]
    ∧ id c = Z.of_nat (length (cards (app w))) + 1
    ∧ id c = Z.of_nat (length (cards (app (scanNfc svc w).1))).
Proof.
  intros Hs. rewrite (scanNfc_succeeds_cards svc text w Hs).
  eexists; split; [reflexivity|]. cbn. split; [done|].
  rewrite length_app; cbn. lia.
Qed.

Lemma scanned_id_is_length_plus_one_hello :
  scan_succeeds helloService "hello"
  ∧ ∃ c,
      cards (app (scanNfc helloService (mkWorld initialState [])).1)
      = [seedCard] ++ [c]
      ∧ id c = 1 + 1
      ∧ id c = 2.
Proof.
  assert (Hs : scan_succeeds helloService "hello").
  { by eapply scan_decoded. }
  split; [exact Hs|].
  exact (scanned_id_is_length_plus_one helloService "hello"
           (mkWorld initialState []) Hs).
Defined.

(** C4.  For every starting collection, when the session is granted, the
    read returns a tag with at least one record and the decoder returns a
    text for the bytes of the first record's payload, the collection after
    the scan is the collection before followed by one card, whose
    [nfcData] is that text; the cards present before are the same, at the
    same positions. *)
Theorem scanNfc_appends_decoded svc w tag record records text :
  requestTechnology svc Ndef = Resolved () →
  getTag svc = Resolved (Some tag) →
  ndefMessage tag = Some (record :: records) →
  decodePayload svc (Uint8Array (payload record)) = Resolved text →
  ∃ c,
    cards (app (scanNfc svc w).1) = cards (app w) ++ [c]
    ∧ nfcData c = Some text
    ∧ title c = "New NFC Card"
    ∧ details c = "Card scanned successfully"
    ∧ (∀ i c', cards (app w) !! i = Some c' →
               cards (app (scanNfc svc w).1) !! i = Some c').
Proof.
  intros Hreq Htag Hmsg Hdec.
  assert (Hs : scan_succeeds svc text) by (by eapply scan_decoded).
  rewrite (scanNfc_succeeds_cards svc text w Hs).
  eexists; split; [reflexivity|]. cbn. repeat split.
  intros i c' Hi. by apply lookup_app_l_Some.
Qed.

Lemma scanNfc_appends_decoded_hello :
  ∃ c,
    cards (app (scanNfc helloService (mkWorld initialState [])).1)
    = [seedCard] ++ [c]
    ∧ nfcData c = Some "hello"
    ∧ title c = "New NFC Card"
    ∧ details c = "Card scanned successfully"
    ∧ (∀ i c', [seedCard] !! i = Some c' →
               cards (app (scanNfc helloService (mkWorld initialState [])).1) !! i
               = Some c').
Proof.
  exact (scanNfc_appends_decoded helloService (mkWorld initialState [])
           helloTag (mkNdefRecord [2; 101; 110; 104; 101; 108; 108; 111]) []
           "hello" eq_refl eq_refl eq_refl eq_refl).
Defined.

(** C7.  When the session is granted and the read returns a tag whose
    record list is empty, the collection after the scan is the collection
    before followed by one card, whose [nfcData] is the string
    "No readable data". *)
Theorem scanNfc_appends_placeholder svc w tag :
  requestTechnology svc Ndef = Resolved () →
  getTag svc = Resolved (Some tag) →
  ndefMessage tag = Some [] →
  ∃ c,
    cards (app (scanNfc svc w).1) = cards (app w) ++ [c]
    ∧ nfcData c = Some "No readable data".
Proof.
  intros Hreq Htag Hmsg.
  assert (Hs : scan_succeeds svc "No readable data") by (by eapply scan_no_records).
  rewrite (scanNfc_succeeds_cards svc _ w Hs).
  by eexists.
Qed.

Lemma scanNfc_appends_placeholder_empty :
  ∃ c,
    cards (app (scanNfc emptyTagService (mkWorld initialState [])).1)
    = [seedCard] ++ [c]
    ∧ nfcData c = Some "No readable data".
Proof.
  exact (scanNfc_appends_placeholder emptyTagService (mkWorld initialState [])
           (mkTagEvent (Some [])) eq_refl eq_refl eq_refl).
Defined.

(** ** Deleting a card *)

Lemma deleteCard_run K w :
  deleteCard K w =
    (mkWorld (mkAppState (filter (λ card, id card ≠ K) (cards (app w)))
                         (isNfcSupported (app w)) (scanModalVisible (app w)))
             (log w), Resolved ()).
Proof. reflexivity. Qed.

Section Filter.

Context {A : Type} (P : A → Prop) `{!∀ x, Decision (P x)}.

Lemma filter_keeps_all (l : list A) : Forall P l → filter P l = l.
Proof.
  induction 1 as [|x l Hx _ IH]; [done|].
  by rewrite filter_cons_True, IH.
Qed.

Lemma filter_complement_length (Q : A → Prop) `{!∀ x, Decision (Q x)}
    (l : list A) :
  (∀ x, Q x ↔ ¬ P x) →
  (length (filter P l) + length (filter Q l) = length l)%nat.
Proof.
  intros HQ. induction l as [|x l IH]; [done|].
  rewrite !filter_cons. destruct (decide (P x)) as [Hx|Hx].
  - destruct (decide (Q x)) as [Hq|_]; [by apply HQ in Hq|]. cbn. lia.
  - destruct (decide (Q x)) as [_|Hq]; [|by rewrite HQ in Hq]. cbn. lia.
Qed.

Lemma filter_all_holds (l : list A) : Forall P (filter P l).
Proof.
  apply Forall_forall. intros x Hx. by apply list_elem_of_filter in Hx as [? _].
Qed.

End Filter.

Lemma id_eq_complement K c : id c = K ↔ ¬ id c ≠ K.
Proof.
  split; [intros Hc Hn; by apply Hn|apply dec_stable].
Qed.

(** C5.  For every collection and every identifier K, the collection after
    [deleteCard K] holds exactly the cards of the collection before whose
    identifier is not K, as a subsequence of it (so in the same relative
    order) and with nothing else lost: the lengths differ by the number of
    cards with identifier K.  When one card has identifier K, the result
    is the collection with that card cut out; when none has, it is the
    collection itself.  Nothing else changes and nothing is logged. *)
Theorem deleteCard_removes_matching K w :
  (∀ c, c ∈ cards (app (deleteCard K w).1) ↔ c ∈ cards (app w) ∧ id c ≠ K)
  ∧ cards (app (deleteCard K w).1) `sublist_of` cards (app w)
  ∧ (length (cards (app (deleteCard K w).1))
     + length (filter (λ c, id c = K) (cards (app w)))
     = length (cards (app w)))%nat
  ∧ (∀ before c after,
       cards (app w) = before ++ c :: after →
       id c = K →
       Forall (λ c', id c' ≠ K) (before ++ after) →
       cards (app (deleteCard K w).1) = before ++ after)
  ∧ (Forall (λ c, id c ≠ K) (cards (app w)) →
     cards (app (deleteCard K w).1) = cards (app w))
  ∧ isNfcSupported (app (deleteCard K w).1) = isNfcSupported (app w)
  ∧ scanModalVisible (app (deleteCard K w).1) = scanModalVisible (app w)
  ∧ log (deleteCard K w).1 = log w
  ∧ (deleteCard K w).2 = Resolved ().
Proof.
  rewrite deleteCard_run; cbn.
  split; [|split; [|split; [|split; [|split]]]]; try done.
  - intros c. rewrite list_elem_of_filter. tauto.
  - apply sublist_filter.
  - apply filter_complement_length, id_eq_complement.
  - intros before c after -> Hc [Hb Ha]%Forall_app.
    rewrite filter_app, filter_cons_False by (intros Hk; by apply Hk).
    by rewrite !filter_keeps_all.
  - apply filter_keeps_all.
Qed.

(** The seeded card deleted between two scanned ones, and a deletion that
    matches nothing. *)
Lemma deleteCard_removes_matching_examples :
  cards (app (deleteCard 1 (mkWorld (mkAppState
            [mkCard 7 "a" "" None; seedCard; mkCard 9 "b" "" None] true false)
            [])).1)
  = [mkCard 7 "a" "" None; mkCard 9 "b" "" None]
  ∧ cards (app (deleteCard 5 (mkWorld initialState [])).1) = [seedCard].
Proof.
  split.
  - refine (proj1 (proj2 (proj2 (proj2 (deleteCard_removes_matching 1
              (mkWorld (mkAppState
                 [mkCard 7 "a" "" None; seedCard; mkCard 9 "b" "" None]
                 true false) [])))))
              [mkCard 7 "a" "" None] seedCard [mkCard 9 "b" "" None]
              eq_refl eq_refl _).
    repeat constructor; discriminate.
  - refine (proj1 (proj2 (proj2 (proj2 (proj2
              (deleteCard_removes_matching 5 (mkWorld initialState []))))))
              _).
    repeat constructor; discriminate.
Defined.

(** C10.  For every collection and every identifier K, no card with
    identifier K is left after [deleteCard K], however many there were:
    the collection shrinks by the number of cards with identifier K, and
    every card of the collection before with identifier K is gone. *)
Theorem deleteCard_removes_every_match K w :
  Forall (λ c, id c ≠ K) (cards (app (deleteCard K w).1))
  ∧ length (cards (app (deleteCard K w).1))
    = (length (cards (app w))
       - length (filter (λ c, id c = K) (cards (app w))))%nat
  ∧ (∀ c, c ∈ cards (app w) → id c = K → c ∉ cards (app (deleteCard K w).1)).
Proof.
  rewrite deleteCard_run; cbn. split; [|split].
  - apply (filter_all_holds (λ c, id c ≠ K)).
  - pose proof (filter_complement_length (λ c, id c ≠ K) (λ c, id c = K)
                  (cards (app w))) as Hlen.
    rewrite <- Hlen; [lia|]. apply id_eq_complement.
  - intros c _ Hc [Hk _]%list_elem_of_filter. by apply Hk.
Qed.

(** Two cards sharing the identifier 2: one deletion removes both. *)
Example deleteCard_removes_both :
  cards (app (deleteCard 2 (mkWorld (mkAppState
            [mkCard 2 "New NFC Card" "Card scanned successfully" (Some "hello");
             mkCard 2 "New NFC Card" "Card scanned successfully" (Some "world")]
            true false) [])).1)
  = [].
Proof. reflexivity. Qed.

(** ** The scan trigger without hardware support *)

Lemma initializeNfc_unsupported svc w :
  isSupported svc = Resolved false →
  initializeNfc svc w =
    (mkWorld (setIsNfcSupported false (app w))
             (log w ++ [EvIsSupported; EvConsoleLog "NFC not supported"]),
     Resolved ()).
Proof.
  intros Hsup.
  unfold initializeNfc, Eff.try_catch, Eff.emit, Eff.settle, Eff.update,
    mbind, M_bind; cbn.
  rewrite Hsup; cbn. by rewrite <- (assoc_L (++)).
Qed.

Lemma openScanModal_run w :
  openScanModal w =
    if isNfcSupported (app w)
    then (mkWorld (setScanModalVisible true (app w)) (log w), Resolved ())
    else (mkWorld (app w) (log w ++ [unsupportedNotice]), Resolved ()).
Proof.
  unfold openScanModal, Eff.read, Eff.emit, Eff.update, mbind, M_bind; cbn.
  by destruct (isNfcSupported (app w)).
Qed.

Lemma scanNfc_app svc w :
  isNfcSupported (app (scanNfc svc w).1) = isNfcSupported (app w)
  ∧ scanModalVisible (app (scanNfc svc w).1) = false.
Proof.
  destruct (scan_cases svc) as [[text Hs]|[[ex Ht]|Hn]].
  - destruct (scanNfc_succeeds svc text w Hs) as (evs & -> & _). done.
  - destruct (scanNfc_throws svc ex w Ht) as (evs & -> & _). done.
  - by rewrite (scanNfc_no_tag svc w Hn).
Qed.

Lemma perform_resolves a w : (perform a w).2 = Resolved ().
Proof.
  destruct a as [|svc|K]; cbn.
  - rewrite openScanModal_run. by destruct (isNfcSupported (app w)).
  - apply scanNfc_resolves.
  - by rewrite deleteCard_run.
Qed.

Lemma perform_locked a w : locked (app w) → locked (app (perform a w).1).
Proof.
  intros [Hsup Hvis]. unfold locked. destruct a as [|svc|K]; cbn.
  - rewrite openScanModal_run, Hsup. by split.
  - destruct (scanNfc_app svc w) as [-> ->]. by split.
  - by split.
Qed.

Lemma performAll_cons a acts w :
  performAll (a :: acts) w = performAll acts (perform a w).1.
Proof.
  cbn. unfold mbind, M_bind.
  pose proof (perform_resolves a w) as Hres.
  destruct (perform a w) as [w' [[]|ex]]; cbn in *; [done|discriminate].
Qed.

Lemma performAll_locked acts w :
  locked (app w) → locked (app (performAll acts w).1).
Proof.
  revert w. induction acts as [|a acts IH]; intros w Hw; [done|].
  rewrite performAll_cons. by apply IH, perform_locked.
Qed.

Lemma afterMount_locked svc acts :
  isSupported svc = Resolved false → locked (app (afterMount svc acts)).
Proof.
  intros Hsup. unfold afterMount, mbind, M_bind.
  rewrite (initializeNfc_unsupported svc _ Hsup).
  by apply performAll_locked.
Qed.

(** C6.  If the capability check on mount reported the hardware as
    unsupported, then after any sequence of user actions (scan triggers
    among them) an invocation of the scan trigger adds the unsupported
    notice to the log and changes nothing in the state: the collection is
    the same, and the scan-confirmation surface, closed from the start,
    is still closed. *)
Theorem openScanModal_unsupported svc acts :
  isSupported svc = Resolved false →
  openScanModal (afterMount svc acts) =
    (mkWorld (app (afterMount svc acts))
             (log (afterMount svc acts) ++ [unsupportedNotice]), Resolved ())
  ∧ scanModalVisible (app (afterMount svc acts)) = false
  ∧ scanModalVisible (app (openScanModal (afterMount svc acts)).1) = false
  ∧ cards (app (openScanModal (afterMount svc acts)).1)
    = cards (app (afterMount svc acts)).
Proof.
  intros Hsup. destruct (afterMount_locked svc acts Hsup) as [Hs Hv].
  rewrite openScanModal_run, Hs. by repeat split.
Qed.

Lemma openScanModal_unsupported_twice :
  isSupported unsupportedService = Resolved false
  ∧ openScanModal (afterMount unsupportedService [OpenScanModal]) =
      (mkWorld initialState
               [EvIsSupported; EvConsoleLog "NFC not supported";
                unsupportedNotice; unsupportedNotice], Resolved ())
  ∧ cards (app (openScanModal (afterMount unsupportedService [OpenScanModal])).1)
    = [seedCard].
Proof.
  split; [reflexivity|].
  pose proof (openScanModal_unsupported unsupportedService [OpenScanModal]
                eq_refl) as (Hrun & _ & _ & Hcards).
  split; [exact Hrun|exact Hcards].
Defined.

(** ** Scan, then delete *)

(** C8.  From the initial state, whose collection is the seeded card with
    identifier 1, a scan in which the service grants the session, returns
    a tag with one record and decodes its payload to "hello" leaves the
    two cards [seedCard] and a card with identifier 2 and [nfcData]
    "hello"; deleting identifier 1 then leaves that second card alone. *)
Theorem scan_then_delete_seed svc bytes :
  requestTechnology svc Ndef = Resolved () →
  getTag svc = Resolved (Some (mkTagEvent (Some [mkNdefRecord bytes]))) →
  decodePayload svc (Uint8Array bytes) = Resolved "hello" →
  id seedCard = 1
  ∧ cards initialState = [seedCard]
  ∧ cards (app (scanNfc svc (mkWorld initialState [])).1)
    = [seedCard;
       mkCard 2 "New NFC Card" "Card scanned successfully" (Some "hello")]
  ∧ cards (app ((scanNfc svc;; deleteCard 1) (mkWorld initialState [])).1)
    = [mkCard 2 "New NFC Card" "Card scanned successfully" (Some "hello")].
Proof.
  intros Hreq Htag Hdec.
  assert (Hs : scan_succeeds svc "hello") by (by eapply scan_decoded).
  split; [done|]. split; [done|].
  unfold mbind, M_bind.
  destruct (scanNfc_succeeds svc "hello" (mkWorld initialState []) Hs)
    as (evs & -> & _).
  by split.
Qed.

Lemma scan_then_delete_seed_hello :
  cards (app (scanNfc helloService (mkWorld initialState [])).1)
  = [mkCard 1 "Kart 1" "Bu, birinci kartın detaylarıdır." None;
     mkCard 2 "New NFC Card" "Card scanned successfully" (Some "hello")]
  ∧ cards (app ((scanNfc helloService;; deleteCard 1)
                  (mkWorld initialState [])).1)
    = [mkCard 2 "New NFC Card" "Card scanned successfully" (Some "hello")].
Proof.
  pose proof (scan_then_delete_seed helloService
                [2; 101; 110; 104; 101; 108; 108; 111] eq_refl eq_refl eq_refl)
    as (_ & _ & Hscan & Hdel).
  split; [exact Hscan|exact Hdel].
Defined.

(** ** Identifiers are not unique *)

(** C9.  There is a sequence of successful scans and deletions that leads
    from the seeded state, whose identifiers are pairwise different, to a
    collection holding two different cards, at two positions, with the
    same identifier. *)
Theorem identifiers_not_unique :
  NoDup (id <$> cards initialState)
  ∧ ∃ acts,
      Forall scan_or_delete acts
      ∧ ¬ NoDup (id <$> cards (app (performAll acts (mkWorld initialState [])).1))
      ∧ ∃ i j c1 c2,
          i ≠ j
          ∧ cards (app (performAll acts (mkWorld initialState [])).1) !! i = Some c1
          ∧ cards (app (performAll acts (mkWorld initialState [])).1) !! j = Some c2
          ∧ c1 ≠ c2
          ∧ id c1 = id c2.
Proof.
  split.
  { cbn. apply NoDup_singleton. }
  exists duplicatingRun. split; [|split].
  - repeat constructor; cbn; eexists; by eapply scan_decoded.
  - cbn. intros Hnd. apply NoDup_cons in Hnd as [Hnotin _].
    apply Hnotin. by left.
  - exists 0%nat, 1%nat,
      (mkCard 2 "New NFC Card" "Card scanned successfully" (Some "hello")),
      (mkCard 2 "New NFC Card" "Card scanned successfully" (Some "world")).
    by repeat split.
Qed.

(** ** The scan, path by path *)

(** The result of [scanNfc] for each answer of the service. *)
Lemma scanNfc_unfold svc w :
  scanNfc svc w =
    let closed := setScanModalVisible false (app w) in
    let failed evs ex :=
      (mkWorld closed (log w ++ evs ++ [EvConsoleWarn "NFC Scan Error" ex;
                                        scanFailureNotice;
                                        EvCancelTechnologyRequest]),
       Resolved ()) in
    let added evs text :=
      (mkWorld (setScanModalVisible false (setCards (appendCard text) (app w)))
               (log w ++ evs ++ [EvCancelTechnologyRequest]), Resolved ()) in
    match requestTechnology svc Ndef with
    | Rejected ex => failed [EvRequestTechnology Ndef] ex
    | Resolved _ =>
        match getTag svc with
        | Rejected ex => failed [EvRequestTechnology Ndef; EvGetTag] ex
        | Resolved None =>
            (mkWorld closed (log w ++ [EvRequestTechnology Ndef; EvGetTag;
                                       EvCancelTechnologyRequest]),
             Resolved ())
        | Resolved (Some tag) =>
            match ndefMessage tag with
            | Some (record :: _) =>
                let bytes := Uint8Array (payload record) in
                match decodePayload svc bytes with
                | Resolved text =>
                    added [EvRequestTechnology Ndef; EvGetTag;
                           EvDecodePayload bytes] text
                | Rejected ex =>
                    failed [EvRequestTechnology Ndef; EvGetTag;
                            EvDecodePayload bytes] ex
                end
            | Some [] | None =>
                added [EvRequestTechnology Ndef; EvGetTag] "No readable data"
            end
        end
    end.
Proof.
  scan_unfold.
  destruct (requestTechnology svc Ndef) as [[]|ex]; cbn;
    [|by rewrite <- !(assoc_L (++))].
  destruct (getTag svc) as [[tag|]|ex]; cbn;
    [|by rewrite <- !(assoc_L (++))..].
  destruct (ndefMessage tag) as [[|record records]|]; cbn;
    [by rewrite <- !(assoc_L (++))| |by rewrite <- !(assoc_L (++))].
  destruct (decodePayload svc (Uint8Array (payload record))) as [text|ex]; cbn;
    by rewrite <- !(assoc_L (++)).
Qed.

Lemma events_app {A} (c : M A) w evs :
  log (c w).1 = log w ++ evs → events c w = evs.
Proof.
  intros Hlog. unfold events. rewrite Hlog. by rewrite drop_app_length.
Qed.

(** Destructs the answers of the service along the paths of [scanNfc],
    leaving one goal per path with the events of the run computed. *)
Ltac scan_paths svc w :=
  unfold events; rewrite !(scanNfc_unfold svc w); cbn zeta;
  destruct (requestTechnology svc Ndef) as [[]|?ex] eqn:?Hreq;
    [destruct (getTag svc) as [[?tag|]|?ex] eqn:?Htag;
       [match goal with
        | tag : TagEvent |- _ =>
            destruct (ndefMessage tag) as [[|?record ?records]|] eqn:?Hmsg;
              [|match goal with
                | record : NdefRecord |- _ =>
                    destruct (decodePayload svc (Uint8Array (payload record)))
                      as [?text|?ex] eqn:?Hdec
                end|]
        end| |]|];
  cbn [fst snd app log]; rewrite ?drop_app_length; cbn [app].

(** The same along the one path the hypotheses in the context fix. *)
Ltac scan_known :=
  unfold events; rewrite !scanNfc_unfold; cbn zeta;
  repeat match goal with
         | H : requestTechnology _ _ = _ |- _ => rewrite !H
         | H : getTag _ = _ |- _ => rewrite !H
         | H : ndefMessage _ = _ |- _ => rewrite !H
         | H : decodePayload _ _ = _ |- _ => rewrite !H
         end;
  cbn [fst snd app log]; rewrite ?drop_app_length; cbn [app].

(** Two answers to the same question are the same answer. *)
Ltac same_answers :=
  repeat match goal with
         | H : ?q = _, H' : ?q = _ |- _ => rewrite H in H'; simplify_eq
         end.

(** Membership in a list that is written out. *)
Ltac in_list :=
  solve [repeat first [apply list_elem_of_here | apply list_elem_of_further]].

Ltac split_in H :=
  repeat (apply elem_of_cons in H as [H|H]; [try discriminate H|]);
  try (by apply elem_of_nil in H).

Lemma app_singleton_neq {A} (l : list A) (x : A) : l ++ [x] ≠ l.
Proof.
  intros Heq. apply (f_equal length) in Heq.
  rewrite length_app in Heq. cbn in Heq. lia.
Qed.

(** X1.  A scan never removes or reorders a card: the collection before is
    a prefix of the collection after, which is longer by one card when the
    scan succeeds and is the same collection when it fails (by an
    exception or for want of a tag); and those are the only two cases. *)
Theorem scanNfc_extends svc w :
  cards (app w) `prefix_of` cards (app (scanNfc svc w).1)
  ∧ ((∃ text, scan_succeeds svc text) ↔
     length (cards (app (scanNfc svc w).1)) = S (length (cards (app w))))
  ∧ (scan_fails svc ↔ cards (app (scanNfc svc w).1) = cards (app w)).
Proof.
  destruct (scan_cases svc) as [[text Hs]|[[ex Ht]|Hn]].
  - rewrite (scanNfc_succeeds_cards svc text w Hs).
    split; [by eexists|]. split.
    + split; [intros _|by exists text]. rewrite length_app; cbn. lia.
    + split.
      * intros [[ex Ht]|Hn]; exfalso.
        -- by eapply scan_succeeds_not_throws.
        -- by eapply scan_succeeds_not_no_tag.
      * intros Heq. by apply app_singleton_neq in Heq.
  - destruct (scanNfc_throws svc ex w Ht) as (evs & -> & _); cbn.
    split; [done|]. split.
    + split; [|lia]. intros [text Hs]. exfalso.
      by eapply scan_succeeds_not_throws.
    + split; [done|]. intros _. left. by exists ex.
  - rewrite (scanNfc_no_tag svc w Hn); cbn.
    split; [done|]. split.
    + split; [|lia]. intros [text Hs]. exfalso.
      by eapply scan_succeeds_not_no_tag.
    + split; [done|]. intros _. by right.
Qed.

(** X2.  The scan-failure alert is shown exactly when an exception was
    raised in the session, and then once, after a console warning that
    carries the exception; no other notice is ever shown by a scan. *)
Theorem scanNfc_notice_iff_exception svc w :
  (notices (events (scanNfc svc) w) = [scanFailureNotice]
   ∨ notices (events (scanNfc svc) w) = [])
  ∧ (notices (events (scanNfc svc) w) = [scanFailureNotice]
     ↔ ∃ ex, scan_throws svc ex)
  ∧ (∀ ex, scan_throws svc ex →
           EvConsoleWarn "NFC Scan Error" ex ∈ events (scanNfc svc) w).
Proof.
  destruct (scan_cases svc) as [[text Hs]|[[ex Ht]|Hn]].
  - assert (Hno : ∀ ex, ¬ scan_throws svc ex).
    { intros ex Ht. by eapply scan_succeeds_not_throws. }
    destruct (scanNfc_succeeds svc text w Hs) as (evs & Hrun & _ & _ & Hnot).
    rewrite (events_app (scanNfc svc) w evs) by (by rewrite Hrun).
    rewrite Hnot. split; [by right|]. split.
    + split; [done|]. intros [ex Ht]. by apply Hno in Ht.
    + intros ex Ht. by apply Hno in Ht.
  - split; [|split].
    + destruct (scanNfc_throws svc ex w Ht) as (evs & Hrun & _ & _ & Hnot).
      rewrite (events_app (scanNfc svc) w evs) by (by rewrite Hrun). by left.
    + destruct (scanNfc_throws svc ex w Ht) as (evs & Hrun & _ & _ & Hnot).
      rewrite (events_app (scanNfc svc) w evs) by (by rewrite Hrun).
      split; [by exists ex|done].
    + clear ex Ht. intros ex Ht.
      destruct Ht; scan_known; in_list.
  - assert (Hno : ∀ ex, ¬ scan_throws svc ex).
    { intros ex Ht. by eapply scan_throws_not_no_tag. }
    rewrite (events_app (scanNfc svc) w
               [EvRequestTechnology Ndef; EvGetTag; EvCancelTechnologyRequest])
      by (by rewrite (scanNfc_no_tag svc w Hn)).
    split; [by right|]. split.
    + split; [done|]. intros [ex Ht]. by apply Hno in Ht.
    + intros ex Ht. by apply Hno in Ht.
Qed.

(** X3.  The calls of a scan into the NFC stack come in one order and stop
    at the first that throws: the session request for the NDEF technology
    is always first; the tag is read exactly when the request was granted;
    the decoder is called exactly when a tag with a first record was read,
    and then on the bytes of that record's payload; the service is never
    queried for support nor started by a scan, and the session is
    requested once, with no retry. *)
Theorem scanNfc_calls svc w :
  log (scanNfc svc w).1 = log w ++ events (scanNfc svc) w
  ∧ head (events (scanNfc svc) w) = Some (EvRequestTechnology Ndef)
  ∧ ((EvGetTag ∈ events (scanNfc svc) w)
     ↔ requestTechnology svc Ndef = Resolved ())
  ∧ (∀ bytes,
       (EvDecodePayload bytes ∈ events (scanNfc svc) w)
       ↔ (requestTechnology svc Ndef = Resolved ()
          ∧ ∃ tag record records,
              getTag svc = Resolved (Some tag)
              ∧ ndefMessage tag = Some (record :: records)
              ∧ bytes = Uint8Array (payload record)))
  ∧ (EvIsSupported ∉ events (scanNfc svc) w)
  ∧ (EvStart ∉ events (scanNfc svc) w)
  ∧ length (filter (λ e, e = EvRequestTechnology Ndef)
                   (events (scanNfc svc) w)) = 1%nat.
Proof.
  scan_paths svc w.
  all: split; [done|]; split; [done|].
  all: split; [split; [intros Hin; by split_in Hin|intros; first [in_list|congruence]]|].
  all: split; [|split; [|split; [|done]]; intros Hin; by split_in Hin].
  all: intros bytes; split;
    [intros Hin; split_in Hin
    |intros (Hr' & tag' & record' & records' & Ht' & Hm' & ->); simplify_eq;
     try congruence].
  all: try (simplify_eq; split; [done|]; by eauto 10).
  all: same_answers; in_list.
Qed.

Lemma Uint8Array_range numbers :
  Forall (λ b, 0 ≤ b < 256)%Z (Uint8Array numbers).
Proof.
  unfold Uint8Array. apply Forall_fmap, Forall_true. intros n; cbn.
  apply Z.mod_pos_bound. lia.
Qed.

Lemma Uint8Array_fixes numbers :
  Forall (λ b, 0 ≤ b < 256)%Z numbers → Uint8Array numbers = numbers.
Proof.
  unfold Uint8Array. induction 1 as [|n numbers Hn _ IH]; [done|].
  cbn. rewrite Z.mod_small by done. by f_equal.
Qed.

(** X4.  Whatever numbers a record's payload holds, the decoder is only
    ever handed bytes: every number of the array it is called on lies
    between 0 and 255, the array is as long as the payload, and a payload
    that holds bytes already is handed over as it is. *)
Theorem scanNfc_decodes_bytes svc w bytes :
  EvDecodePayload bytes ∈ events (scanNfc svc) w →
  Forall (λ b, 0 ≤ b < 256)%Z bytes
  ∧ ∃ tag record records,
      getTag svc = Resolved (Some tag)
      ∧ ndefMessage tag = Some (record :: records)
      ∧ length bytes = length (payload record)
      ∧ (Forall (λ b, 0 ≤ b < 256)%Z (payload record) → bytes = payload record).
Proof.
  scan_paths svc w; intros Hin; split_in Hin; simplify_eq.
  all: split; [apply Uint8Array_range|].
  all: do 3 eexists; split; [done|]; split; [done|].
  all: split; [unfold Uint8Array; by rewrite length_fmap|apply Uint8Array_fixes].
Qed.

Lemma scanNfc_decodes_bytes_wrapped :
  let svc := tagService (Some (mkTagEvent (Some [mkNdefRecord [258; -1; 7]])))
                        "x" in
  EvDecodePayload [2; 255; 7] ∈ events (scanNfc svc) (mkWorld initialState [])
  ∧ Forall (λ b, 0 ≤ b < 256)%Z [2; 255; 7].
Proof.
  cbv zeta.
  assert (Hin : EvDecodePayload [2; 255; 7]
                ∈ events (scanNfc (tagService
                    (Some (mkTagEvent (Some [mkNdefRecord [258; -1; 7]]))) "x"))
                    (mkWorld initialState [])).
  { vm_compute. in_list. }
  split; [exact Hin|].
  exact (proj1 (scanNfc_decodes_bytes _ _ _ Hin)).
Defined.

(** X5.  Only the first record of a tag is looked at: a tag with further
    records gives the same run, card for card and event for event, as the
    tag with the first record alone. *)
Theorem scanNfc_first_record_only svc record records w :
  scanNfc (withRecords svc (record :: records)) w
  = scanNfc (withRecords svc [record]) w.
Proof.
  rewrite !scanNfc_unfold. cbn.
  by destruct (requestTechnology svc Ndef).
Qed.

(** ** The capability check on mount *)

(** The result of [initializeNfc] for each answer of the service. *)
Lemma initializeNfc_unfold svc w :
  initializeNfc svc w =
    let result b evs :=
      (mkWorld (setIsNfcSupported b (app w)) (log w ++ evs), Resolved ()) in
    match isSupported svc with
    | Resolved true =>
        match start svc with
        | Resolved _ => result true [EvIsSupported; EvStart]
        | Rejected ex =>
            result false [EvIsSupported; EvStart;
                          EvConsoleWarn "Error initializing NFC" ex]
        end
    | Resolved false =>
        result false [EvIsSupported; EvConsoleLog "NFC not supported"]
    | Rejected ex =>
        result false [EvIsSupported; EvConsoleWarn "Error initializing NFC" ex]
    end.
Proof.
  unfold initializeNfc, Eff.try_catch, Eff.emit, Eff.settle, Eff.update,
    mbind, M_bind; cbn.
  destruct (isSupported svc) as [[]|ex]; cbn;
    [|by rewrite <- !(assoc_L (++))..].
  destruct (start svc) as [[]|ex]; cbn; by rewrite <- !(assoc_L (++)).
Qed.

Ltac mount_paths svc w :=
  unfold events; rewrite !(initializeNfc_unfold svc w); cbn zeta;
  destruct (isSupported svc) as [[]|?ex] eqn:?Hsup;
    [destruct (start svc) as [[]|?ex] eqn:?Hstart| |];
  cbn [fst snd app log]; rewrite ?drop_app_length; cbn [app].

(** X6.  The capability is marked available exactly when the support
    query answers yes and the start of the service then succeeds; in every
    other case (no support, a throwing query, a throwing start) it is
    marked unavailable.  The mount effect never throws, and it leaves the
    collection and the scan-confirmation surface as they were. *)
Theorem initializeNfc_available_iff svc w :
  (isNfcSupported (app (initializeNfc svc w).1) = true
   ↔ isSupported svc = Resolved true ∧ start svc = Resolved ())
  ∧ (initializeNfc svc w).2 = Resolved ()
  ∧ cards (app (initializeNfc svc w).1) = cards (app w)
  ∧ scanModalVisible (app (initializeNfc svc w).1) = scanModalVisible (app w).
Proof.
  mount_paths svc w; cbn; (split; [|done]).
  all: split; [try done|intros [? ?]; simplify_eq]; done.
Qed.

(** X7.  The service is started exactly when the support query answered
    yes, and then once, after the query; a failure of the query or of the
    start is written to the console as a warning with the exception, and
    no notice is shown to the user on mount, whatever happens. *)
Theorem initializeNfc_starts_iff_supported svc w :
  log (initializeNfc svc w).1 = log w ++ events (initializeNfc svc) w
  ∧ head (events (initializeNfc svc) w) = Some EvIsSupported
  ∧ ((EvStart ∈ events (initializeNfc svc) w) ↔ isSupported svc = Resolved true)
  ∧ (length (filter (λ e, e = EvStart) (events (initializeNfc svc) w)) ≤ 1)%nat
  ∧ (∀ ex, isSupported svc = Rejected ex
           ∨ (isSupported svc = Resolved true ∧ start svc = Rejected ex) →
           EvConsoleWarn "Error initializing NFC" ex
           ∈ events (initializeNfc svc) w)
  ∧ notices (events (initializeNfc svc) w) = [].
Proof.
  mount_paths svc w.
  all: split; [done|]; split; [done|].
  all: split; [split; [intros Hin; by split_in Hin|intros; first [in_list|congruence]]|].
  all: split; [vm_compute; lia|]; split; [|done].
  all: intros ex' [Hq|[Hq Hs]]; simplify_eq; same_answers; try congruence; in_list.
Qed.

(** ** What user actions leave alone *)

Lemma scanNfc_log_prefix svc w : log w `prefix_of` log (scanNfc svc w).1.
Proof. scan_paths svc w; by eexists. Qed.

Lemma perform_log_prefix a w : log w `prefix_of` log (perform a w).1.
Proof.
  destruct a as [|svc|K]; cbn.
  - rewrite openScanModal_run. destruct (isNfcSupported (app w)); cbn;
      [reflexivity|by eexists].
  - apply scanNfc_log_prefix.
  - rewrite deleteCard_run. reflexivity.
Qed.

Lemma perform_capability a w :
  isNfcSupported (app (perform a w).1) = isNfcSupported (app w).
Proof.
  destruct a as [|svc|K]; cbn.
  - rewrite openScanModal_run. by destruct (isNfcSupported (app w)) eqn:Hcap.
  - apply scanNfc_app.
  - by rewrite deleteCard_run.
Qed.

Lemma performAll_result acts w : (performAll acts w).2 = Resolved ().
Proof.
  revert w. induction acts as [|a acts IH]; intros w; [done|].
  rewrite performAll_cons. apply IH.
Qed.

Lemma performAll_capability acts w :
  isNfcSupported (app (performAll acts w).1) = isNfcSupported (app w).
Proof.
  revert w. induction acts as [|a acts IH]; intros w; [done|].
  by rewrite performAll_cons, IH, perform_capability.
Qed.

(** X8.  No sequence of user actions (scan triggers, scans of any
    outcome, deletions) changes the capability that the mount effect
    recorded, none throws, and the log they leave starts with the log
    there was. *)
Theorem performAll_keeps_capability acts w :
  isNfcSupported (app (performAll acts w).1) = isNfcSupported (app w)
  ∧ (performAll acts w).2 = Resolved ()
  ∧ log w `prefix_of` log (performAll acts w).1.
Proof.
  split; [apply performAll_capability|]. split; [apply performAll_result|].
  revert w. induction acts as [|a acts IH]; intros w; [reflexivity|].
  rewrite performAll_cons. etrans; [apply perform_log_prefix|apply IH].
Qed.

(** X9.  When the support query answered yes and the service started,
    the scan trigger, at any later time, opens the scan-confirmation
    surface: it shows no notice, logs nothing, leaves the collection as it
    is, and a second press changes nothing more. *)
Theorem openScanModal_supported svc acts :
  isSupported svc = Resolved true →
  start svc = Resolved () →
  openScanModal (afterMount svc acts) =
    (mkWorld (setScanModalVisible true (app (afterMount svc acts)))
             (log (afterMount svc acts)), Resolved ())
  ∧ (openScanModal;; openScanModal) (afterMount svc acts)
    = openScanModal (afterMount svc acts).
Proof.
  intros Hsup Hstart.
  assert (Hcap : isNfcSupported (app (afterMount svc acts)) = true).
  { unfold afterMount, mbind, M_bind.
    rewrite initializeNfc_unfold, Hsup, Hstart; cbn beta iota zeta.
    by rewrite performAll_capability. }
  unfold mbind, M_bind. rewrite !openScanModal_run, Hcap; cbn.
  rewrite openScanModal_run; cbn. by rewrite Hcap.
Qed.

Lemma openScanModal_supported_seed :
  openScanModal (afterMount helloService [])
  = (mkWorld (mkAppState [seedCard] true true) [EvIsSupported; EvStart],
     Resolved ()).
Proof.
  exact (proj1 (openScanModal_supported helloService [] eq_refl eq_refl)).
Defined.

(** ** Deletions composed *)



(** X11.  A successful scan followed by the deletion of the identifier the
    new card was given restores the collection, provided no card of the
    collection before had that identifier (its length plus one). *)
Theorem scan_then_delete_restores svc text w :
  scan_succeeds svc text →
  Forall (λ c, id c ≠ Z.of_nat (length (cards (app w))) + 1) (cards (app w)) →
  cards (app ((scanNfc svc;;
               deleteCard (Z.of_nat (length (cards (app w))) + 1)) w).1)
  = cards (app w).
Proof.
  intros Hs Hfresh. unfold mbind, M_bind.
  destruct (scanNfc_succeeds svc text w Hs) as (evs & -> & _).
  rewrite deleteCard_run; cbn. unfold appendCard.
  rewrite filter_app, filter_cons_False by (cbn; intros Hk; by apply Hk).
  rewrite filter_nil, app_nil_r. by apply filter_keeps_all.
Qed.

Lemma scan_then_delete_restores_seed :
  cards (app ((scanNfc helloService;; deleteCard 2) (mkWorld initialState [])).1)
  = [seedCard].
Proof.
  refine (scan_then_delete_restores helloService "hello"
            (mkWorld initialState []) _ _).
  - by eapply scan_decoded.
  - repeat constructor. discriminate.
Defined.

(** ** Identifiers along a run *)

Lemma numbered_append text cs : numbered cs → numbered (appendCard text cs).
Proof.
  unfold numbered, appendCard. intros Hcs.
  rewrite fmap_app, length_app, seq_app, fmap_app, Hcs. done.
Qed.

Lemma numbered_NoDup cs : numbered cs → NoDup (id <$> cs).
Proof.
  unfold numbered. intros ->. apply NoDup_fmap_2; [|apply NoDup_seq].
  intros i j Hij. lia.
Qed.

Lemma scanNfc_cards svc w :
  cards (app (scanNfc svc w).1) = cards (app w)
  ∨ ∃ text, cards (app (scanNfc svc w).1) = appendCard text (cards (app w)).
Proof.
  destruct (scan_cases svc) as [[text Hs]|[[ex Ht]|Hn]].
  - right. exists text. by rewrite (scanNfc_succeeds_cards svc text w Hs).
  - left. by destruct (scanNfc_throws svc ex w Ht) as (evs & -> & _).
  - left. by rewrite (scanNfc_no_tag svc w Hn).
Qed.

Lemma openScanModal_cards w : cards (app (openScanModal w).1) = cards (app w).
Proof. rewrite openScanModal_run. by destruct (isNfcSupported (app w)). Qed.

Lemma perform_numbered a w :
  no_delete a → numbered (cards (app w)) → numbered (cards (app (perform a w).1)).
Proof.
  destruct a as [|svc|K]; cbn; intros Hnd Hw; [| |done].
  - by rewrite openScanModal_cards.
  - destruct (scanNfc_cards svc w) as [->|[text ->]]; [done|].
    by apply numbered_append.
Qed.

(** X12.  As long as nothing is deleted, identifiers stay unique: a run
    of scans (of any outcome) and scan triggers that starts from a
    collection numbered 1, 2, ... in display order ends in one numbered
    the same way, so without two cards of the same identifier. *)
Theorem numbered_without_delete acts w :
  Forall no_delete acts →
  numbered (cards (app w)) →
  numbered (cards (app (performAll acts w).1))
  ∧ NoDup (id <$> cards (app (performAll acts w).1)).
Proof.
  intros Hacts Hw.
  assert (Hn : numbered (cards (app (performAll acts w).1))).
  { revert w Hw. induction Hacts as [|a acts Ha _ IH]; intros w Hw; [done|].
    rewrite performAll_cons. by apply IH, perform_numbered. }
  split; [done|by apply numbered_NoDup].
Qed.

Lemma numbered_without_delete_seed :
  NoDup (id <$> cards (app (performAll
           [ScanNfc helloService; OpenScanModal; ScanNfc refusingService;
            ScanNfc noTagService; ScanNfc worldService]
           (mkWorld initialState [])).1)).
Proof.
  refine (proj2 (numbered_without_delete
            [ScanNfc helloService; OpenScanModal; ScanNfc refusingService;
             ScanNfc noTagService; ScanNfc worldService]
            (mkWorld initialState []) _ _)).
  - repeat constructor.
  - reflexivity.
Defined.

Lemma filter_lookup_later {A} (P : A → Prop) `{!∀ x, Decision (P x)}
    (l : list A) i x :
  filter P l !! i = Some x → ∃ j, (i ≤ j)%nat ∧ l !! j = Some x.
Proof.
  revert i. induction l as [|y l IH]; intros i; [done|].
  rewrite filter_cons. destruct (decide (P y)) as [Hy|Hy].
  - destruct i as [|i]; cbn.
    + intros [= ->]. by exists 0%nat.
    + intros (j & Hij & Hj)%IH. exists (S j). split; [lia|done].
  - intros (j & Hij & Hj)%IH. exists (S j). split; [lia|done].
Qed.

Lemma positioned_append text cs : positioned cs → positioned (appendCard text cs).
Proof.
  unfold positioned, appendCard. intros Hcs i c [Hi|[Hlen Hi]]%lookup_app_Some.
  - by apply Hcs.
  - destruct (i - length cs)%nat as [|k] eqn:Hk; [|done].
    injection Hi as <-. cbn. lia.
Qed.

Lemma positioned_filter (P : ExpandableCardProps → Prop)
    `{!∀ c, Decision (P c)} cs :
  positioned cs → positioned (filter P cs).
Proof.
  unfold positioned. intros Hcs i c (j & Hij & Hj)%filter_lookup_later.
  apply Hcs in Hj. lia.
Qed.

Lemma perform_positioned a w :
  positioned (cards (app w)) → positioned (cards (app (perform a w).1)).
Proof.
  destruct a as [|svc|K]; cbn; intros Hw.
  - by rewrite openScanModal_cards.
  - destruct (scanNfc_cards svc w) as [->|[text ->]]; [done|].
    by apply positioned_append.
  - rewrite deleteCard_run; cbn. by apply positioned_filter.
Qed.

(** X13.  Along every run, deletions included, no identifier falls below
    the one-based position of its card: if that holds of the collection a
    run starts from (as it does of the seeded one), it holds of the
    collection it ends in, and every identifier there is at least 1. *)
Theorem positioned_always acts w :
  positioned (cards (app w)) →
  positioned (cards (app (performAll acts w).1))
  ∧ Forall (λ c, 1 ≤ id c)%Z (cards (app (performAll acts w).1)).
Proof.
  intros Hw.
  assert (Hp : positioned (cards (app (performAll acts w).1))).
  { revert w Hw. induction acts as [|a acts IH]; intros w Hw; [done|].
    rewrite performAll_cons. by apply IH, perform_positioned. }
  split; [done|]. apply Forall_lookup. intros i c Hi. apply Hp in Hi. lia.
Qed.

Lemma positioned_always_duplicating :
  Forall (λ c, 1 ≤ id c)%Z
         (cards (app (performAll duplicatingRun (mkWorld initialState [])).1)).
Proof.
  refine (proj2 (positioned_always duplicatingRun (mkWorld initialState []) _)).
  intros [|i] c Hi; [|done]. injection Hi as <-. done.
Defined.

(** ** The card item *)

Lemma toggleExpand_settled it : opacityAnim it = 1 → settled (toggleExpand it).
Proof. intros Hop. split; [|done]. cbn. by destruct (expanded it). Qed.

(** X14.  Toggling a card any number of times leaves it expanded exactly
    when the number of toggles is odd (for a card that started collapsed;
    in general the expansion is flipped that often), with the height at
    rest at 150 when expanded and at 60 when collapsed; the dialog is not
    touched, and two toggles in a row change nothing. *)
Theorem toggleExpand_parity n it :
  settled it →
  expanded (Nat.iter n toggleExpand it) = xorb (Nat.odd n) (expanded it)
  ∧ settled (Nat.iter n toggleExpand it)
  ∧ modalVisible (Nat.iter n toggleExpand it) = modalVisible it
  ∧ toggleExpand (toggleExpand it) = it.
Proof.
  intros [Hh Ho].
  assert (Hiter : expanded (Nat.iter n toggleExpand it)
                  = xorb (Nat.odd n) (expanded it)
                  ∧ opacityAnim (Nat.iter n toggleExpand it) = 1
                  ∧ (n ≠ 0%nat → settled (Nat.iter n toggleExpand it))
                  ∧ modalVisible (Nat.iter n toggleExpand it) = modalVisible it).
  { induction n as [|n (IHe & IHo & IHs & IHm)]; [done|].
    rewrite Nat.iter_succ, Nat.odd_succ, <- Nat.negb_odd.
    split; [cbn; rewrite IHe; by destruct (Nat.odd n), (expanded it)|].
    split; [done|]. split; [intros _; by apply toggleExpand_settled|done]. }
  destruct Hiter as (He & Hop & Hs & Hm).
  split; [done|]. split; [|split; [done|]].
  - destruct n as [|n]; [by split|by apply Hs].
  - destruct it as [e h o m]; cbn in *. subst h o. by destruct e.
Qed.

Lemma toggleExpand_parity_three :
  expanded (Nat.iter 3 toggleExpand initialItem) = true
  ∧ heightAnim (Nat.iter 3 toggleExpand initialItem) = 150.
Proof.
  assert (Hs : settled initialItem) by (by split).
  destruct (toggleExpand_parity 3 initialItem Hs) as (He & [Hh _] & _).
  split; [exact He|exact Hh].
Defined.

Lemma pressItem_local props onDelete p it w :
  p ≠ OnConfirmDelete →
  (pressItem props onDelete p it w).2 = (w, Resolved ())
  ∧ (settled it → settled (pressItem props onDelete p it w).1).
Proof.
  intros Hp. destruct p; try done; cbn; (split; [done|]); try done.
  intros [_ Ho]. by apply toggleExpand_settled.
Qed.

Lemma pressAll_cons_local props onDelete p ps it w :
  p ≠ OnConfirmDelete →
  pressAll props onDelete (p :: ps) it w
  = pressAll props onDelete ps (pressItem props onDelete p it w).1 w.
Proof.
  intros Hp. cbn [pressAll].
  pose proof (pressItem_local props onDelete p it w Hp) as [Hw _].
  by destruct (pressItem props onDelete p it w) as [it' [w' r]];
    cbn in Hw; simplify_eq.
Qed.

(** X15.  Whatever the deletion callback would do, a sequence of presses
    on a card that has no press on the dialog's Yes button (toggling,
    opening the dialog, dismissing it) never reaches the parent: its
    collection, state and log are untouched, nothing is thrown, and the
    card's height and opacity stay at rest. *)
Theorem pressAll_without_confirm props onDelete ps it w :
  OnConfirmDelete ∉ ps →
  (pressAll props onDelete ps it w).2 = (w, Resolved ())
  ∧ (settled it → settled (pressAll props onDelete ps it w).1).
Proof.
  revert it. induction ps as [|p ps IH]; intros it Hps; [done|].
  apply not_elem_of_cons in Hps as [Hp Hps].
  rewrite pressAll_cons_local by done.
  destruct (IH (pressItem props onDelete p it w).1 Hps) as [Hw Hs].
  split; [done|]. intros Hit. apply Hs.
  by apply (pressItem_local props onDelete p it w).
Qed.

Lemma pressAll_without_confirm_cancel :
  (pressAll seedCard (λ _, Eff.settle (Rejected (Exn "never called")))
            [OnToggleExpand; OnShowModal; OnCloseModal] initialItem
            (mkWorld initialState [])).2
  = (mkWorld initialState [], Resolved ()).
Proof.
  refine (proj1 (pressAll_without_confirm seedCard
            (λ _, Eff.settle (Rejected (Exn "never called")))
            [OnToggleExpand; OnShowModal; OnCloseModal] initialItem
            (mkWorld initialState []) _)).
  intros Hin. split_in Hin.
Defined.

(** X16.  Confirming a deletion calls the callback once, with the
    identifier of this card, and the parent is left as the callback
    leaves it; the card is faded to height 0 and opacity 0 in any case,
    and the dialog is closed when the callback returns but stays as it was
    when the callback throws.  With [deleteCard] as the callback, which is
    how [App] wires it, no card with this identifier is left, every other
    card is, and the dialog is closed. *)
Theorem confirmDelete_calls_back props onDelete it w :
  (confirmDelete props onDelete it w).2 = onDelete (id props) w
  ∧ heightAnim (confirmDelete props onDelete it w).1 = 0
  ∧ opacityAnim (confirmDelete props onDelete it w).1 = 0
  ∧ expanded (confirmDelete props onDelete it w).1 = expanded it
  ∧ modalVisible (confirmDelete props onDelete it w).1
    = match (onDelete (id props) w).2 with
      | Resolved _ => false
      | Rejected _ => modalVisible it
      end
  ∧ modalVisible (confirmDelete props deleteCard it w).1 = false
  ∧ Forall (λ c, id c ≠ id props)
           (cards (app (confirmDelete props deleteCard it w).2.1))
  ∧ (∀ c, c ∈ cards (app w) → id c ≠ id props →
          c ∈ cards (app (confirmDelete props deleteCard it w).2.1)).
Proof.
  split; [|split; [|split; [|split; [|split; [|split; [|split]]]]]].
  1-5: unfold confirmDelete;
    by destruct (onDelete (id props) w) as [w' [u|ex]].
  - done.
  - cbn. apply (filter_all_holds (λ c, id c ≠ id props)).
  - cbn. intros c Hc Hid. by apply list_elem_of_filter.
Qed.

(** ** What is on screen *)

Lemma pressable_renderCard props it :
  pressable (renderCard props it) =
    [OnToggleExpand; OnShowModal]
    ++ (if modalVisible it
        then [OnCloseModal; OnCloseModal; OnCloseModal; OnConfirmDelete]
        else []).
Proof.
  unfold renderCard, nfcDataLine.
  destruct (expanded it), (modalVisible it), (nfcData props) as [[|a s]|]; done.
Qed.

(** X17.  The controls a card offers: toggling and opening the dialog are
    always on offer; dismissing and confirming are on offer exactly while
    the dialog is visible; the add button is never part of a card. *)
Theorem renderCard_controls props it :
  OnToggleExpand ∈ pressable (renderCard props it)
  ∧ OnShowModal ∈ pressable (renderCard props it)
  ∧ ((OnConfirmDelete ∈ pressable (renderCard props it))
     ↔ modalVisible it = true)
  ∧ ((OnCloseModal ∈ pressable (renderCard props it))
     ↔ modalVisible it = true)
  ∧ (OnOpenScanModal ∉ pressable (renderCard props it)).
Proof.
  rewrite pressable_renderCard.
  destruct (modalVisible it); cbn [app].
  all: split; [in_list|]; split; [in_list|].
  all: split; [split; [intros Hin; by split_in Hin|intros; first [in_list|done]]|].
  all: split; [split; [intros Hin; by split_in Hin|intros; first [in_list|done]]|].
  all: intros Hin; by split_in Hin.
Qed.

(** X18.  No deletion without the dialog: from a card whose dialog is
    hidden, a sequence of presses on controls the card offers, none of
    them the delete button that opens the dialog, consists of toggles
    only; the deletion callback is not reached, so the parent is
    untouched, and the dialog is still hidden. *)
Theorem no_delete_without_dialog props onDelete ps it w :
  offered props onDelete ps it w →
  modalVisible it = false →
  OnShowModal ∉ ps →
  Forall (λ p, p = OnToggleExpand) ps
  ∧ (pressAll props onDelete ps it w).2 = (w, Resolved ())
  ∧ modalVisible (pressAll props onDelete ps it w).1 = false.
Proof.
  revert it. induction ps as [|p ps IH]; intros it Hoff Hm Hps; [done|].
  apply not_elem_of_cons in Hps as [Hp Hps].
  destruct Hoff as [Hin Hoff].
  rewrite pressable_renderCard, Hm in Hin. cbn [app] in Hin.
  apply elem_of_cons in Hin as [->|Hin];
    [|apply elem_of_cons in Hin as [->|Hin];
      [done|by apply elem_of_nil in Hin]].
  cbn in Hoff. rewrite pressAll_cons_local by done. cbn.
  destruct (IH (toggleExpand it) Hoff Hm Hps) as (Hall & Hw & Hmv).
  split; [by constructor|done].
Qed.

Lemma no_delete_without_dialog_toggles :
  (pressAll seedCard deleteCard [OnToggleExpand; OnToggleExpand] initialItem
            (mkWorld initialState [])).2
  = (mkWorld initialState [], Resolved ()).
Proof.
  refine (proj1 (proj2 (no_delete_without_dialog seedCard deleteCard
            [OnToggleExpand; OnToggleExpand] initialItem
            (mkWorld initialState []) _ eq_refl _))).
  - cbn. repeat split; in_list.
  - intros Hin. split_in Hin.
Defined.


(** X20.  How a scanned card shows: collapsed, as every new card item is,
    it shows its title and the delete button only; once expanded it shows
    the details line and, for a scanned text that is not empty, a line
    with "NFC Data: " and the text. *)
Theorem scanned_card_display svc text w :
  scan_succeeds svc text →
  text ≠ "" →
  ∃ props,
    last (cards (app (scanNfc svc w).1)) = Some props
    ∧ displayed (renderCard props initialItem) = ["New NFC Card"; "X"]
    ∧ displayed (renderCard props (toggleExpand initialItem))
      = ["New NFC Card"; "X"; "Card scanned successfully";
         "NFC Data: " +:+ text].
Proof.
  intros Hs Htext. rewrite (scanNfc_succeeds_cards svc text w Hs).
  eexists. split; [apply last_snoc|]. split; [done|].
  by destruct text.
Qed.

Lemma scanned_card_display_hello :
  ∃ props,
    last (cards (app (scanNfc helloService (mkWorld initialState [])).1))
    = Some props
    ∧ displayed (renderCard props initialItem) = ["New NFC Card"; "X"]
    ∧ displayed (renderCard props (toggleExpand initialItem))
      = ["New NFC Card"; "X"; "Card scanned successfully"; "NFC Data: hello"].
Proof.
  refine (scanned_card_display helloService "hello" (mkWorld initialState [])
            _ _).
  - by eapply scan_decoded.
  - discriminate.
Defined.

(** X21.  The scan-confirmation surface is not on screen: pressing the add
    button never changes the tree [App] returns, also when the capability
    is there and the press marks the surface as open; and a scan that
    fails leaves the tree as it was. *)
Theorem render_ignores_scan_surface svc w :
  renderApp (app (openScanModal w).1) = renderApp (app w)
  ∧ (isNfcSupported (app w) = true →
     scanModalVisible (app (openScanModal w).1) = true)
  ∧ (scan_fails svc → renderApp (app (scanNfc svc w).1) = renderApp (app w)).
Proof.
  split; [|split].
  - unfold renderApp. by rewrite openScanModal_cards.
  - intros Hcap. by rewrite openScanModal_run, Hcap.
  - intros [[ex Ht]|Hn]; unfold renderApp.
    + by destruct (scanNfc_throws svc ex w Ht) as (evs & -> & _).
    + by rewrite (scanNfc_no_tag svc w Hn).
Qed.
